(** * Task start-up and signal trampoline of the RISC-V kernel build
      (arch/risc-v/src/common/crt1.c)

    The file has two parts, at the two levels at which crt1.c is written:

    - [SigTrampoline]: the naked assembly routine [sig_trampoline], embedded
      as the instruction sequence it is, run on a small register machine
      (registers of XLEN bits, byte-addressed little-endian memory, a trace
      of calls and environment calls).
    - [Crt1]: the C functions [exec_preinit], [exec_init], [exec_fini] and
      [__start], embedded in a state monad over the task's world (reserved
      data area, exit-function registry, trace), with the three outcomes a
      task-level computation has: it returns, the task has terminated, or it
      faulted on a read outside mapped memory. *)

From Stdlib Require Import ZArith Lia.
From stdpp Require Import base decidable list gmap strings.
From Equations Require Import Equations.

Local Open Scope Z_scope.

(* ===================================================================== *)
(** * Part 1: the signal trampoline                                       *)
(* ===================================================================== *)

Module SigTrampoline.

(** The registers the routine names, and [zero]. *)
Inductive reg : Type := zero | ra | sp | t0 | a0 | a1 | a2 | a3.

(** Their numbers in the register file (x0, x1, x2, x5, x10..x13). *)
Definition regnum (r : reg) : nat :=
  match r with
  | zero => 0 | ra => 1 | sp => 2 | t0 => 5
  | a0 => 10 | a1 => 11 | a2 => 12 | a3 => 13
  end.

(** The instructions the routine uses.  [RegStore]/[RegLoad] stand for the
    REGSTORE/REGLOAD macros: the store and load of one full register
    ([sw]/[lw] on RV32, [sd]/[ld] on RV64).  [Jalr rs] is [jalr rs], that is
    [jalr ra, 0(rs)]. *)
Inductive instr : Type :=
| Addi (rd rs : reg) (imm : Z)
| RegStore (rs2 : reg) (off : Z) (rs1 : reg)
| RegLoad (rd : reg) (off : Z) (rs1 : reg)
| Mv (rd rs : reg)
| Jalr (rs : reg)
| Li (rd : reg) (imm : Z)
| Ecall
| Nop.

(** What the routine does that the rest of the system can see: it calls a
    routine (target and the first three argument registers), and it issues
    an environment call (the request number is in a0).  What the handler
    does on its own account is the handler's, and is not recorded here. *)
Inductive event : Type :=
| EvCall (target arg0 arg1 arg2 : Z)
| EvEcall (number : Z).

Definition regfile : Type := reg -> Z.
Definition memory : Type := Z -> Z.

Definition getreg (rf : regfile) (r : reg) : Z :=
  match r with zero => 0 | _ => rf r end.

Definition setreg (rf : regfile) (r : reg) (v : Z) : regfile :=
  match r with
  | zero => rf
  | _ => fun r' => if Nat.eqb (regnum r') (regnum r) then v else rf r'
  end.

Definition setbyte (m : memory) (a b : Z) : memory :=
  fun a' => if decide (a' = a) then b else m a'.

Record machine : Type := Machine {
  pc : nat;                 (* index of the next instruction of the routine *)
  regs : regfile;
  mem : memory;
  trace : list event
}.

(** The kernel's side of the contract (up_signal_dispatch): the four fields
    of the invocation record, as the header comment of the routine lists
    them. *)
Record sigrec : Type := SigRec {
  sighand : Z;
  signo : Z;
  info : Z;
  ucontext : Z
}.

Inductive outcome : Type :=
| Next (m : machine)        (* still executing the routine *)
| Trap (m : machine)        (* ecall executed: the kernel has control *)
| Stuck (m : machine).      (* pc outside the routine *)

Section Machine.

(** Not in crt1.c (riscv_internal.h, syscall.h, the linker): the width of
    a register in bytes, the frame size, the request number, the address
    the routine is linked at; and the handler, which is user code. *)
Variable REGBYTES : nat.
Variable STACK_FRAME_SIZE : Z.
Variable SYS_signal_handler_return : Z.
Variable sig_trampoline_addr : Z.
Variable handler : Z -> regfile -> memory -> regfile * memory.

Definition XLEN : Z := 8 * Z.of_nat REGBYTES.

Definition wrap (v : Z) : Z := v mod 2 ^ XLEN.

(** Little-endian store and load of [n] bytes at address [a]. *)
Fixpoint store_le (n : nat) (a v : Z) (m : memory) : memory :=
  match n with
  | O => m
  | S k => setbyte (store_le k (a + 1) (v / 256) m) (wrap a) (v mod 256)
  end.

Fixpoint load_le (n : nat) (a : Z) (m : memory) : Z :=
  match n with
  | O => 0
  | S k => m (wrap a) + 256 * load_le k (a + 1) m
  end.

Definition sig_trampoline : list instr :=
  [ Addi sp sp (- STACK_FRAME_SIZE);
    RegStore ra 0 sp;
    Mv t0 a0;
    Mv a0 a1;
    Mv a1 a2;
    Mv a2 a3;
    Jalr t0;
    RegLoad ra 0 sp;
    Addi sp sp STACK_FRAME_SIZE;
    Li a0 SYS_signal_handler_return;
    Ecall;
    Nop ].

(** The address of the routine's [i]-th instruction, four bytes each: what
    a [jalr] leaves in ra. *)
Definition instr_addr (i : nat) : Z :=
  wrap (sig_trampoline_addr + 4 * Z.of_nat i).

Definition advance (m : machine) (rf : regfile) (mm : memory) : machine :=
  {| pc := S (pc m); regs := rf; mem := mm; trace := trace m |}.

(** One instruction.  A call leaves the routine: the handler runs as the
    environment gives it and comes back to the return address, the
    instruction after the [jalr]. *)
Definition exec (i : instr) (m : machine) : outcome :=
  let rf := regs m in
  match i with
  | Addi rd rs imm =>
      Next (advance m (setreg rf rd (wrap (getreg rf rs + imm))) (mem m))
  | RegStore rs2 off rs1 =>
      Next (advance m rf
              (store_le REGBYTES (getreg rf rs1 + off) (getreg rf rs2) (mem m)))
  | RegLoad rd off rs1 =>
      Next (advance m
              (setreg rf rd (load_le REGBYTES (getreg rf rs1 + off) (mem m)))
              (mem m))
  | Mv rd rs =>
      Next (advance m (setreg rf rd (getreg rf rs)) (mem m))
  | Jalr rs =>
      let target := getreg rf rs in
      let rf1 := setreg rf ra (instr_addr (S (pc m))) in
      let '(rf2, m2) := handler target rf1 (mem m) in
      Next {| pc := S (pc m); regs := rf2; mem := m2;
              trace := trace m
                         ++ [EvCall target (getreg rf1 a0) (getreg rf1 a1)
                               (getreg rf1 a2)] |}
  | Li rd imm =>
      Next (advance m (setreg rf rd (wrap imm)) (mem m))
  | Ecall =>
      Trap {| pc := S (pc m); regs := rf; mem := mem m;
              trace := trace m ++ [EvEcall (getreg rf a0)] |}
  | Nop =>
      Next (advance m rf (mem m))
  end.

Definition step (m : machine) : outcome :=
  match sig_trampoline !! pc m with
  | Some i => exec i m
  | None => Stuck m
  end.

(** [run n m]: at most [n] instructions from [m]; [Next] when the routine
    is still executing after them. *)
Fixpoint run (n : nat) (m : machine) : outcome :=
  match n with
  | O => Next m
  | S k =>
      match step m with
      | Next m' => run k m'
      | o => o
      end
  end.

(** Signal delivery: the record in a0..a3, control at the routine's first
    instruction; everything else as the interrupted task left it. *)
Definition deliver (r : sigrec) (m : machine) : machine :=
  {| pc := 0%nat;
     regs := setreg (setreg (setreg (setreg (regs m) a0 (sighand r))
                               a1 (signo r)) a2 (info r)) a3 (ucontext r);
     mem := mem m;
     trace := trace m |}.

(** The calling convention on the handler's side: the stack pointer comes
    back as it was given, and no byte at or above it is changed. *)
Definition abi_callee : Prop :=
  forall target rf m,
    let '(rf', m') := handler target rf m in
    rf' sp = rf sp /\ forall a, rf sp <= a -> m' a = m a.

End Machine.

(** An RV64 instance: registers of 8 bytes, the frame of 16 bytes, request
    number 7, and a handler that overwrites ra and a0 and uses the stack
    below the pointer it is given. *)
Definition sample_handler (target : Z) (rf : regfile) (m : memory)
  : regfile * memory :=
  (setreg (setreg rf ra 0) a0 target, setbyte m (rf sp - 1) 255).

Definition sample_sigrec : sigrec :=
  {| sighand := 0x4000; signo := 10; info := 0x7000; ucontext := 0x7100 |}.

Definition sample_machine : machine :=
  {| pc := 3%nat;
     regs := fun r => match r with sp => 0x8000 | ra => 0x1234 | _ => 0 end;
     mem := fun _ => 0;
     trace := [] |}.

End SigTrampoline.

(* ===================================================================== *)
(** * Part 2: the C functions of crt1.c                                   *)
(* ===================================================================== *)

Module Crt1.

(** A function that can be handed to [atexit]: this unit hands over its own
    [exec_fini]; anything else is a function of some other unit, known by
    its address. *)
Inductive exitfunc : Type :=
| Fn_exec_fini
| Fn_other (addr : Z).

(** The steps of a task's life this unit takes, in the order it takes
    them. *)
Inductive event : Type :=
| EvSigtramp (addr : Z)                    (* ARCH_DATA_RESERVE->ar_sigtramp = addr *)
| EvInvoke (f : Z)                         (* initializer() with initializer = f *)
| EvAtexit (f : exitfunc)                  (* atexit(f) *)
| EvMain (argc : Z) (argv : list string)   (* main(argc, argv) *)
| EvExit (status : Z).                     (* exit(status) *)

(** The state the unit works on: the one field of the reserved data area,
    the exit functions registered and not yet run (most recent first), and
    what has happened so far. *)
Record world : Type := World {
  ar_sigtramp : Z;
  exitfuncs : list exitfunc;
  trace : list event
}.

Definition log (w : world) (evs : list event) : world :=
  {| ar_sigtramp := ar_sigtramp w;
     exitfuncs := exitfuncs w;
     trace := trace w ++ evs |}.

(** A computation returns a value, or the task has terminated under it with
    an exit status, or it faulted (a read of unmapped memory). *)
Inductive result (A : Type) : Type :=
| Returned (a : A) (w : world)
| Terminated (status : Z) (w : world)
| Faulted (w : world).
Arguments Returned {A} a w.
Arguments Terminated {A} status w.
Arguments Faulted {A} w.

Definition world_of {A} (r : result A) : world :=
  match r with
  | Returned _ w => w
  | Terminated _ w => w
  | Faulted w => w
  end.

Definition M (A : Type) : Type := world -> result A.

#[global] Instance M_ret : MRet M := fun A a w => Returned a w.

#[global] Instance M_bind : MBind M := fun A B f c w =>
  match c w with
  | Returned a w' => f a w'
  | Terminated s w' => Terminated s w'
  | Faulted w' => Faulted w'
  end.

(** How the call of main ends: main returns a value, or main calls exit
    itself and never returns. *)
Inductive main_outcome : Type :=
| MainReturns (ret : Z)
| MainExits (status : Z).

Definition status_of (o : main_outcome) : Z :=
  match o with
  | MainReturns ret => ret
  | MainExits status => status
  end.

Inductive phase : Type := PreInit | Init | Fini.

Definition emit (e : event) : M unit := fun w => Returned tt (log w [e]).

Definition invocations (arr : list Z) : list event :=
  EvInvoke <$> filter (fun f => f ≠ 0) arr.

Definition null_entries (arr : list Z) : nat :=
  length (filter (fun f => f = 0) arr).

Section Unit.

(** Not in crt1.c: the configuration, the size of an [initializer_t], the
    six symbols the linker defines and the words of the image between
    them, the address [sig_trampoline] is linked at, and main. *)
Variable CONFIG_HAVE_CXX : bool.
Variable sizeof_initializer : positive.
Variables __preinit_array_start __preinit_array_end : Z.
Variables __init_array_start __init_array_end : Z.
Variables __fini_array_start __fini_array_end : Z.
Variable image : gmap Z Z.
Variable sig_trampoline : Z.
Variable main : Z -> list string -> main_outcome.

(** [*p] for [p : initializer_t *]. *)
Definition deref (p : Z) : M Z := fun w =>
  match image !! p with
  | Some initializer => Returned initializer w
  | None => Faulted w
  end.

(** [initializer()]: the function runs and returns. *)
Definition call (initializer : Z) : M unit := emit (EvInvoke initializer).

Equations? exec_preinit_from (preinit : Z) : M unit
  by wf (Z.to_nat (__preinit_array_end - preinit)) lt :=
  exec_preinit_from preinit with decide (preinit < __preinit_array_end) := {
    | left _ =>
        initializer ← deref preinit;
        (if decide (initializer ≠ 0) then call initializer else mret tt) ;;
        exec_preinit_from (preinit + Z.pos sizeof_initializer)
    | right _ => mret tt }.
Proof. lia. Qed.

Definition exec_preinit : M unit := exec_preinit_from __preinit_array_start.

Equations? exec_init_from (init : Z) : M unit
  by wf (Z.to_nat (__init_array_end - init)) lt :=
  exec_init_from init with decide (init < __init_array_end) := {
    | left _ =>
        initializer ← deref init;
        (if decide (initializer ≠ 0) then call initializer else mret tt) ;;
        exec_init_from (init + Z.pos sizeof_initializer)
    | right _ => mret tt }.
Proof. lia. Qed.

Definition exec_init : M unit := exec_init_from __init_array_start.

Equations? exec_fini_from (fini : Z) : M unit
  by wf (Z.to_nat (__fini_array_end - fini)) lt :=
  exec_fini_from fini with decide (fini < __fini_array_end) := {
    | left _ =>
        initializer ← deref fini;
        (if decide (initializer ≠ 0) then call initializer else mret tt) ;;
        exec_fini_from (fini + Z.pos sizeof_initializer)
    | right _ => mret tt }.
Proof. lia. Qed.

Definition exec_fini : M unit := exec_fini_from __fini_array_start.

(** [ARCH_DATA_RESERVE->ar_sigtramp = v]. *)
Definition set_ar_sigtramp (v : Z) : M unit := fun w =>
  Returned tt {| ar_sigtramp := v;
                 exitfuncs := exitfuncs w;
                 trace := trace w ++ [EvSigtramp v] |}.

(** Modelled from the spec: [atexit] (the C library's, not in crt1.c) is the
    process-exit hook registration: "Register the fini (destructor) phase
    to run automatically and exactly once at task exit".  It returns 0. *)
Definition atexit (f : exitfunc) : M Z := fun w =>
  Returned 0 {| ar_sigtramp := ar_sigtramp w;
                exitfuncs := f :: exitfuncs w;
                trace := trace w ++ [EvAtexit f] |}.

(** Modelled from the spec: calling a registered function; the one this
    unit registers is its own [exec_fini]. *)
Definition call_exitfunc (f : exitfunc) : M unit :=
  match f with
  | Fn_exec_fini => exec_fini
  | Fn_other addr => call addr
  end.

(** Modelled from the spec: the registry after a function has been taken
    from it. *)
Definition set_exitfuncs (fs : list exitfunc) : M unit := fun w =>
  Returned tt {| ar_sigtramp := ar_sigtramp w;
                 exitfuncs := fs;
                 trace := trace w |}.

(** Modelled from the spec: the registered functions at process exit; each
    "fires exactly once regardless of the exit path taken": it leaves the
    registry as it is called. *)
Fixpoint run_exitfuncs (fs : list exitfunc) : M unit :=
  match fs with
  | [] => mret tt
  | f :: rest =>
      set_exitfuncs rest ;; call_exitfunc f ;; run_exitfuncs rest
  end.

(** Modelled from the spec: [exit] (the C library's, not in crt1.c) is "the
    normal exit path": it "triggers the fini phase", then the "task
    terminates" with the status it was given.  It never returns. *)
Definition exit {A} (status : Z) : M A := fun w =>
  match (emit (EvExit status) ;; run_exitfuncs (exitfuncs w)) w with
  | Returned _ w' => Terminated status w'
  | Terminated s w' => Terminated s w'
  | Faulted w' => Faulted w'
  end.

(** [main(argc, argv)]. *)
Definition call_main (argc : Z) (argv : list string) : M Z :=
  emit (EvMain argc argv) ;;
  match main argc argv with
  | MainReturns ret => mret ret
  | MainExits status => exit status
  end.

Definition __start (argc : Z) (argv : list string) : M Empty_set :=
  set_ar_sigtramp sig_trampoline ;;
  (if CONFIG_HAVE_CXX
   then exec_preinit ;; exec_init ;; atexit Fn_exec_fini ;; mret tt
   else mret tt) ;;
  ret ← call_main argc argv;
  exit ret.

(** The three runners by phase, with the boundary pair each one walks. *)
Definition phase_start (ph : phase) : Z :=
  match ph with
  | PreInit => __preinit_array_start
  | Init => __init_array_start
  | Fini => __fini_array_start
  end.

Definition phase_end (ph : phase) : Z :=
  match ph with
  | PreInit => __preinit_array_end
  | Init => __init_array_end
  | Fini => __fini_array_end
  end.

Definition exec_phase (ph : phase) : M unit :=
  match ph with
  | PreInit => exec_preinit
  | Init => exec_init
  | Fini => exec_fini
  end.

(** The Runner as the specification words it (section 4.2): "given a start
    and end boundary delimiting a contiguous sequence of nullable function
    references, invoke each non-null entry with no arguments, in ascending
    address order".  The sequence is laid out first, then walked. *)
Definition slot_count (start end_ : Z) : nat :=
  Z.to_nat ((end_ - start + Z.pos sizeof_initializer - 1)
              / Z.pos sizeof_initializer).

Definition slots (start end_ : Z) : list Z :=
  (fun i : nat => start + Z.pos sizeof_initializer * Z.of_nat i)
    <$> seq 0 (slot_count start end_).

Definition run_slot (p : Z) : M unit :=
  f ← deref p;
  if decide (f ≠ 0) then call f else mret tt.

Fixpoint run_slots (ps : list Z) : M unit :=
  match ps with
  | [] => mret tt
  | p :: rest => run_slot p ;; run_slots rest
  end.

Definition callback_list_executor (start end_ : Z) : M unit :=
  run_slots (slots start end_).

(** The image holds the array [arr] between [start] and [end_]. *)
Definition array_at (start end_ : Z) (arr : list Z) : Prop :=
  end_ = start + Z.pos sizeof_initializer * Z.of_nat (length arr)
  /\ forall (i : nat) (f : Z),
       arr !! i = Some f ->
       image !! (start + Z.pos sizeof_initializer * Z.of_nat i) = Some f.

Definition linked (pre ini fin : list Z) : Prop :=
  array_at __preinit_array_start __preinit_array_end pre
  /\ array_at __init_array_start __init_array_end ini
  /\ array_at __fini_array_start __fini_array_end fin.

End Unit.

(** A computation that leaves the reserved data area alone: whatever its
    outcome, the field is as before and no store to it has happened. *)
Definition keeps_sigtramp {A} (c : M A) : Prop :=
  forall w,
    ar_sigtramp (world_of (c w)) = ar_sigtramp w
    /\ exists evs,
         trace (world_of (c w)) = trace w ++ evs
         /\ forall a, EvSigtramp a ∉ evs.

(** A small task: registers of 8 bytes; no pre-init entry; the init array
    [A; null; B] at 0x2000 and the fini array [C; D] at 0x3000, with
    A = 0x100, B = 0x200, C = 0x300, D = 0x400; main returns 7. *)
Definition sample_image : gmap Z Z :=
  {[ 0x2000 := 0x100; 0x2008 := 0; 0x2010 := 0x200;
     0x3000 := 0x300; 0x3008 := 0x400 ]}.

Definition sample_main (argc : Z) (argv : list string) : main_outcome :=
  MainReturns 7.

Definition fresh : world :=
  {| ar_sigtramp := 0; exitfuncs := []; trace := [] |}.

Definition sample_start (cxx : bool) : M Empty_set :=
  __start cxx 8 0x1000 0x1000 0x2000 0x2018 0x3000 0x3010
    sample_image 0x5000 sample_main 1 ["app"%string].

End Crt1.


(* ===================================================================== *)
(** * Part 3: properties of the signal trampoline                         *)
(* ===================================================================== *)

Module SigTrampolineProofs.
Import SigTrampoline.

Section TrampolineFacts.

Variable REGBYTES : nat.
Variable STACK_FRAME_SIZE : Z.
Variable SYS_signal_handler_return : Z.
Variable sig_trampoline_addr : Z.
Variable handler : Z -> regfile -> memory -> regfile * memory.

Local Abbreviation XLEN := (XLEN REGBYTES).
Local Abbreviation wrap := (wrap REGBYTES).
Local Abbreviation store_le := (store_le REGBYTES).
Local Abbreviation load_le := (load_le REGBYTES).
Local Abbreviation run :=
  (run REGBYTES STACK_FRAME_SIZE SYS_signal_handler_return
     sig_trampoline_addr handler).
Local Abbreviation step :=
  (step REGBYTES STACK_FRAME_SIZE SYS_signal_handler_return
     sig_trampoline_addr handler).

Lemma XLEN_nonneg : 0 <= XLEN.
Proof. unfold SigTrampoline.XLEN. lia. Qed.

Lemma modulus_pos : 0 < 2 ^ XLEN.
Proof. apply Z.pow_pos_nonneg; [lia | apply XLEN_nonneg]. Qed.

Lemma modulus_bytes : 2 ^ XLEN = 256 ^ Z.of_nat REGBYTES.
Proof.
  unfold SigTrampoline.XLEN.
  rewrite Z.pow_mul_r by lia. reflexivity.
Qed.

Lemma wrap_small v : 0 <= v < 2 ^ XLEN -> wrap v = v.
Proof. intros Hv. unfold SigTrampoline.wrap. apply Z.mod_small, Hv. Qed.

(** A load sees only the bytes it reads. *)
Lemma load_le_ext k a (m m' : memory) :
  (forall i, 0 <= i < Z.of_nat k -> m' (wrap (a + i)) = m (wrap (a + i))) ->
  load_le k a m' = load_le k a m.
Proof.
  revert a. induction k as [|k IH]; intros a Hagree; simpl; [reflexivity|].
  rewrite (IH (a + 1)).
  - specialize (Hagree 0). rewrite Z.add_0_r in Hagree.
    rewrite Hagree by lia. reflexivity.
  - intros i Hi. specialize (Hagree (1 + i)).
    rewrite Z.add_assoc in Hagree. apply Hagree. lia.
Qed.

(** What was stored is what is loaded, up to the width of the access. *)
Lemma load_store_le k a v (m : memory) :
  0 <= a -> a + Z.of_nat k <= 2 ^ XLEN ->
  load_le k a (store_le k a v m) = v mod 256 ^ Z.of_nat k.
Proof.
  revert a v. induction k as [|k IH]; intros a v Ha Hfit.
  - simpl. rewrite Z.mod_1_r. reflexivity.
  - cbn [SigTrampoline.load_le SigTrampoline.store_le].
    unfold setbyte at 1. rewrite decide_True by reflexivity.
    rewrite (load_le_ext k (a + 1) (store_le k (a + 1) (v / 256) m)).
    + rewrite IH by lia.
      replace (Z.of_nat (S k)) with (1 + Z.of_nat k) by lia.
      rewrite Z.pow_add_r by lia. rewrite Z.pow_1_r.
      rewrite Z.rem_mul_r by (try apply Z.pow_pos_nonneg; lia).
      reflexivity.
    + intros i Hi. unfold setbyte. rewrite decide_False; [reflexivity|].
      rewrite !wrap_small by lia. lia.
Qed.

(** Once the routine has trapped, more fuel changes nothing. *)
Lemma run_trap_more n k m mf :
  run n m = Trap mf -> run (n + k) m = Trap mf.
Proof.
  revert m. induction n as [|n IH]; intros m Hrun; simpl in *.
  - discriminate.
  - destruct (step m) as [m'| |]; try assumption. apply IH, Hrun.
Qed.

(** C1.  Entered with the invocation record in a0..a3, the trampoline calls
    the handler once, with signo, info and ucontext as its three arguments,
    and then issues one environment call, the signal-handler-return request;
    these two are all it does, and it has trapped into the kernel after
    eleven instructions whatever fuel it is given beyond that. *)
Theorem sig_trampoline_relays (r : sigrec) (m : machine) (n : nat) :
  0 <= SYS_signal_handler_return < 2 ^ XLEN ->
  (11 <= n)%nat ->
  exists mf,
    run n (deliver r m) = Trap mf
    /\ trace mf
       = trace m ++ [ EvCall (sighand r) (signo r) (info r) (ucontext r);
                      EvEcall SYS_signal_handler_return ].
Proof.
  intros Hsys Hn.
  replace n with (11 + (n - 11))%nat by lia.
  cut (exists mf, run 11 (deliver r m) = Trap mf
         /\ trace mf
            = trace m ++ [ EvCall (sighand r) (signo r) (info r) (ucontext r);
                           EvEcall SYS_signal_handler_return ]).
  { intros (mf & Hrun & Htr). exists mf. split; [|exact Htr].
    apply run_trap_more, Hrun. }
  cbn -[SigTrampoline.wrap SigTrampoline.store_le SigTrampoline.load_le Z.add Z.opp].
  destruct (handler _ _ _) as [rf2 m2].
  cbn -[SigTrampoline.wrap SigTrampoline.store_le SigTrampoline.load_le Z.add Z.opp].
  eexists. split; [reflexivity|]. cbn.
  rewrite wrap_small by exact Hsys.
  rewrite <- app_assoc. reflexivity.
Qed.

(** C7.  With a handler that keeps the calling convention, and a stack
    pointer and return address that are register values, the trampoline
    has lowered the stack pointer by the frame size and holds the return
    address in the frame when it calls the handler, and has the return
    address and the stack pointer it was entered with when it issues the
    environment call. *)
Theorem sig_trampoline_preserves_ra_sp (r : sigrec) (m : machine) :
  abi_callee handler ->
  Z.of_nat REGBYTES <= STACK_FRAME_SIZE ->
  STACK_FRAME_SIZE <= regs m sp < 2 ^ XLEN ->
  0 <= regs m ra < 2 ^ XLEN ->
  exists m6 mf,
    run 6 (deliver r m) = Next m6
    /\ sig_trampoline STACK_FRAME_SIZE SYS_signal_handler_return !! pc m6
       = Some (Jalr t0)
    /\ regs m6 sp = regs m sp - STACK_FRAME_SIZE
    /\ load_le REGBYTES (regs m6 sp) (mem m6) = regs m ra
    /\ run 11 (deliver r m) = Trap mf
    /\ sig_trampoline STACK_FRAME_SIZE SYS_signal_handler_return !! pc mf
       = Some Nop
    /\ regs mf ra = regs m ra
    /\ regs mf sp = regs m sp.
Proof.
  intros Habi Hframe Hsp Hra.
  pose proof modulus_bytes as Hmod.
  assert (Hlow : wrap (regs m sp + - STACK_FRAME_SIZE) = regs m sp - STACK_FRAME_SIZE)
    by (apply wrap_small; lia).
  assert (Hsaved :
    load_le REGBYTES (regs m sp - STACK_FRAME_SIZE)
      (store_le REGBYTES (regs m sp - STACK_FRAME_SIZE) (regs m ra) (mem m))
    = regs m ra).
  { rewrite load_store_le by lia. rewrite <- Hmod. apply Z.mod_small, Hra. }
  cbn -[SigTrampoline.wrap SigTrampoline.store_le SigTrampoline.load_le Z.add Z.opp Z.sub].
  rewrite !Hlow, !Z.add_0_r.
  match goal with
  | |- context [handler ?t ?rf ?mm] =>
      pose proof (Habi t rf mm) as Hcall; destruct (handler t rf mm) as [rf2 m2]
  end.
  cbn -[SigTrampoline.wrap SigTrampoline.store_le SigTrampoline.load_le Z.add Z.opp Z.sub] in Hcall |- *.
  destruct Hcall as [Hsp2 Hmem2].
  do 2 eexists.
  split; [reflexivity|]. split; [reflexivity|]. split; [reflexivity|].
  split; [exact Hsaved|].
  split; [reflexivity|]. split; [reflexivity|].
  cbn -[SigTrampoline.wrap SigTrampoline.store_le SigTrampoline.load_le Z.add Z.opp Z.sub].
  rewrite Hsp2, Z.add_0_r. split.
  - rewrite <- Hsaved. apply load_le_ext.
    intros i Hi. apply Hmem2. rewrite wrap_small by lia. lia.
  - replace (regs m sp - STACK_FRAME_SIZE + STACK_FRAME_SIZE) with (regs m sp) by lia.
    apply wrap_small. lia.
Qed.

(** ** Further properties of the routine *)

(** A store changes only the bytes it writes. *)
Lemma store_le_other k a v (m : memory) x :
  (forall i, 0 <= i < Z.of_nat k -> wrap (a + i) <> x) ->
  store_le k a v m x = m x.
Proof.
  revert a v. induction k as [|k IH]; intros a v Hother; [reflexivity|].
  cbn [SigTrampoline.store_le]. unfold setbyte.
  rewrite decide_False.
  - apply IH. intros i Hi. specialize (Hother (1 + i)).
    rewrite Z.add_assoc in Hother. apply Hother. lia.
  - specialize (Hother 0). rewrite Z.add_0_r in Hother.
    intros Heq. apply Hother; [lia|]. symmetry. exact Heq.
Qed.

(** X1.  Of the memory it was entered with, the routine itself changes only
    the bytes of the register it saves at the bottom of its frame: the
    memory it hands to the handler is the entry memory everywhere else, in
    particular at and above the stack pointer of entry when the frame holds
    a register. *)
Theorem sig_trampoline_writes_only_its_frame (r : sigrec) (m : machine) :
  Z.of_nat REGBYTES <= STACK_FRAME_SIZE ->
  STACK_FRAME_SIZE <= regs m sp < 2 ^ XLEN ->
  exists m6,
    run 6 (deliver r m) = Next m6
    /\ (forall a,
          ~ (regs m sp - STACK_FRAME_SIZE <= a
             < regs m sp - STACK_FRAME_SIZE + Z.of_nat REGBYTES) ->
          mem m6 a = mem m a)
    /\ (forall a, regs m sp <= a -> mem m6 a = mem m a).
Proof.
  intros Hframe Hsp.
  assert (Hlow : wrap (regs m sp + - STACK_FRAME_SIZE)
                 = regs m sp - STACK_FRAME_SIZE)
    by (apply wrap_small; lia).
  assert (Hout : forall a,
            ~ (regs m sp - STACK_FRAME_SIZE <= a
               < regs m sp - STACK_FRAME_SIZE + Z.of_nat REGBYTES) ->
            store_le REGBYTES (regs m sp - STACK_FRAME_SIZE) (regs m ra)
              (mem m) a = mem m a).
  { intros a Ha. apply store_le_other. intros i Hi.
    rewrite wrap_small by lia. lia. }
  eexists. split; [reflexivity|].
  cbn -[SigTrampoline.wrap SigTrampoline.store_le Z.add Z.opp Z.sub].
  rewrite Hlow, Z.add_0_r. split.
  - exact Hout.
  - intros a Ha. apply Hout. lia.
Qed.


Lemma mod_wrap_divide (d x : Z) :
  0 < d -> (d | 2 ^ XLEN) -> wrap x mod d = x mod d.
Proof.
  intros Hd Hdiv. unfold SigTrampoline.wrap.
  apply Z.mod_mod_divide, Hdiv.
Qed.

Lemma mod_add_divide (d x y : Z) :
  0 < d -> (d | y) -> (x + y) mod d = x mod d.
Proof.
  intros Hd [k Hk]. subst y. apply Z.mod_add. lia.
Qed.

(** X3.  The frame keeps the stack aligned: for every [d] that divides the
    frame size (and the size of the address space, as a power of two does),
    the stack pointer the handler is called with is congruent modulo [d] to
    the stack pointer of entry, and the stack pointer at the environment
    call to the one the handler returned with; also where the subtraction
    or the addition wraps around. *)
Theorem sig_trampoline_keeps_alignment (d : Z) (r : sigrec) (m : machine) :
  0 < d ->
  (d | 2 ^ XLEN) ->
  (d | STACK_FRAME_SIZE) ->
  exists m6,
    run 6 (deliver r m) = Next m6
    /\ regs m6 sp mod d = regs m sp mod d
    /\ let '(rf2, m2) :=
         handler (sighand r)
           (setreg (regs m6) ra (instr_addr REGBYTES sig_trampoline_addr 7))
           (mem m6) in
       exists mf,
         run 11 (deliver r m) = Trap mf
         /\ regs mf sp mod d = rf2 sp mod d.
Proof.
  intros Hd Hmod Hframe.
  eexists. split; [reflexivity|].
  cbn -[SigTrampoline.wrap SigTrampoline.store_le SigTrampoline.load_le
        SigTrampoline.instr_addr Z.add Z.opp Z.sub].
  split.
  - rewrite mod_wrap_divide by assumption.
    apply mod_add_divide; [exact Hd|].
    apply Z.divide_opp_r, Hframe.
  - destruct (handler _ _ _) as [rf2 m2].
    eexists. split; [reflexivity|].
    cbn -[SigTrampoline.wrap SigTrampoline.store_le SigTrampoline.load_le
          SigTrampoline.instr_addr Z.add Z.opp Z.sub].
    rewrite mod_wrap_divide by assumption.
    apply mod_add_divide; assumption.
Qed.

(** X4.  The environment call is the eleventh instruction the routine
    executes and the last: after fewer steps the routine is still running,
    at the instruction of that index, having called the handler if seven or
    more have run and issued no environment call; it never runs past the
    [ecall] into the [nop] or off its end. *)
Theorem sig_trampoline_step_count (r : sigrec) (m : machine) (n : nat) :
  (n < 11)%nat ->
  exists m',
    run n (deliver r m) = Next m'
    /\ pc m' = n
    /\ trace m'
       = trace m
           ++ (if (n <=? 6)%nat then []
               else [EvCall (sighand r) (signo r) (info r) (ucontext r)]).
Proof.
  intros Hn.
  do 11 (destruct n as [|n];
         [ cbn -[SigTrampoline.wrap SigTrampoline.store_le
                 SigTrampoline.load_le SigTrampoline.instr_addr
                 Z.add Z.opp Z.sub];
           try destruct (handler _ _ _) as [rf2 m2];
           cbn -[SigTrampoline.wrap SigTrampoline.store_le
                 SigTrampoline.load_le SigTrampoline.instr_addr
                 Z.add Z.opp Z.sub];
           eexists; split; [reflexivity|]; split; [reflexivity|];
           cbn; rewrite ?app_nil_r; reflexivity
         | ]).
  lia.
Qed.

End TrampolineFacts.

Lemma sample_handler_abi : abi_callee sample_handler.
Proof.
  intros target rf m. simpl. split; [reflexivity|].
  intros a Ha. unfold setbyte. rewrite decide_False by lia. reflexivity.
Qed.

(** The sample handler overwrites ra and a0 and writes below the stack
    pointer; the routine still ends with the ra and sp it was entered
    with, and a0 holding the request number. *)
Example sample_run :
  match run 8 16 7 0x1000 sample_handler 11
          (deliver sample_sigrec sample_machine) with
  | Trap mf =>
      (pc mf, regs mf ra, regs mf sp, regs mf a0, mem mf (0x8000 - 17),
       trace mf)
      = (11%nat, 0x1234, 0x8000, 7, 255,
         [EvCall 0x4000 10 0x7000 0x7100; EvEcall 7])
  | _ => False
  end.
Proof. vm_compute. reflexivity. Qed.

Lemma sig_trampoline_relays_witness :
  exists mf,
    run 8 16 7 0x1000 sample_handler 11 (deliver sample_sigrec sample_machine)
    = Trap mf
    /\ trace mf = [EvCall 0x4000 10 0x7000 0x7100; EvEcall 7].
Proof.
  apply (sig_trampoline_relays 8 16 7 0x1000 sample_handler
           sample_sigrec sample_machine 11).
  - vm_compute. split; [discriminate|reflexivity].
  - lia.
Defined.

Lemma sig_trampoline_preserves_ra_sp_witness :
  exists m6 mf,
    run 8 16 7 0x1000 sample_handler 6 (deliver sample_sigrec sample_machine)
    = Next m6
    /\ sig_trampoline 16 7 !! pc m6 = Some (Jalr t0)
    /\ regs m6 sp = 0x8000 - 16
    /\ load_le 8 8 (regs m6 sp) (mem m6) = 0x1234
    /\ run 8 16 7 0x1000 sample_handler 11 (deliver sample_sigrec sample_machine)
       = Trap mf
    /\ sig_trampoline 16 7 !! pc mf = Some Nop
    /\ regs mf ra = 0x1234
    /\ regs mf sp = 0x8000.
Proof.
  apply (sig_trampoline_preserves_ra_sp 8 16 7 0x1000 sample_handler
           sample_sigrec sample_machine).
  - exact sample_handler_abi.
  - vm_compute. discriminate.
  - vm_compute. split; [discriminate|reflexivity].
  - vm_compute. split; [discriminate|reflexivity].
Defined.

Lemma sig_trampoline_writes_only_its_frame_witness :
  exists m6,
    run 8 16 7 0x1000 sample_handler 6 (deliver sample_sigrec sample_machine)
    = Next m6
    /\ (forall a, ~ (0x8000 - 16 <= a < 0x8000 - 16 + 8) -> mem m6 a = 0)
    /\ (forall a, 0x8000 <= a -> mem m6 a = 0).
Proof.
  apply (sig_trampoline_writes_only_its_frame 8 16 7 0x1000 sample_handler
           sample_sigrec sample_machine).
  - vm_compute. discriminate.
  - vm_compute. split; [discriminate|reflexivity].
Defined.

Lemma sig_trampoline_keeps_alignment_witness :
  exists m6,
    run 8 16 7 0x1000 sample_handler 6 (deliver sample_sigrec sample_machine)
    = Next m6
    /\ regs m6 sp mod 16 = 0x8000 mod 16
    /\ let '(rf2, m2) :=
         sample_handler 0x4000
           (setreg (regs m6) ra (instr_addr 8 0x1000 7)) (mem m6) in
       exists mf,
         run 8 16 7 0x1000 sample_handler 11
           (deliver sample_sigrec sample_machine) = Trap mf
         /\ regs mf sp mod 16 = rf2 sp mod 16.
Proof.
  apply (sig_trampoline_keeps_alignment 8 16 7 0x1000 sample_handler 16
           sample_sigrec sample_machine).
  - lia.
  - exists (2 ^ 60). reflexivity.
  - exists 1. reflexivity.
Defined.

Lemma sig_trampoline_step_count_witness :
  exists m',
    run 8 16 7 0x1000 sample_handler 7 (deliver sample_sigrec sample_machine)
    = Next m'
    /\ pc m' = 7%nat
    /\ trace m' = [EvCall 0x4000 10 0x7000 0x7100].
Proof.
  apply (sig_trampoline_step_count 8 16 7 0x1000 sample_handler
           sample_sigrec sample_machine 7).
  lia.
Defined.

End SigTrampolineProofs.

(* ===================================================================== *)
(** * Part 4: properties of the start-up code                             *)
(* ===================================================================== *)

Module Crt1Proofs.
Import Crt1.

Ltac unfold_monad := unfold mbind, mret, M_bind, M_ret in *.

Lemma bind_returned {A B} (c : M A) (f : A -> M B) (w w1 : world) (a : A) :
  c w = Returned a w1 -> (c ≫= f) w = f a w1.
Proof. intros Hc. unfold_monad. rewrite Hc. reflexivity. Qed.

Lemma bind_faulted {A B} (c : M A) (f : A -> M B) (w w1 : world) :
  c w = Faulted w1 -> (c ≫= f) w = Faulted w1.
Proof. intros Hc. unfold_monad. rewrite Hc. reflexivity. Qed.

Lemma bind_pointwise {A B} (c c' : M A) (f f' : A -> M B) (w : world) :
  (forall w0, c w0 = c' w0) ->
  (forall a w0, f a w0 = f' a w0) ->
  (c ≫= f) w = (c' ≫= f') w.
Proof.
  intros Hc Hf. unfold_monad. rewrite Hc.
  destruct (c' w); [apply Hf|reflexivity|reflexivity].
Qed.

Lemma log_nil (w : world) : log w [] = w.
Proof. destruct w; unfold log; simpl. rewrite app_nil_r. reflexivity. Qed.

Lemma log_log (w : world) (xs ys : list event) :
  log (log w xs) ys = log w (xs ++ ys).
Proof. unfold log; simpl. rewrite app_assoc. reflexivity. Qed.

Lemma invocations_cons (f : Z) (arr : list Z) :
  invocations (f :: arr)
  = (if decide (f ≠ 0) then [EvInvoke f] else []) ++ invocations arr.
Proof.
  unfold invocations. rewrite filter_cons.
  destruct (decide (f ≠ 0)); reflexivity.
Qed.

Lemma invocations_count (arr : list Z) :
  length (invocations arr) = (length arr - null_entries arr)%nat
  /\ (null_entries arr <= length arr)%nat.
Proof.
  unfold invocations, null_entries. rewrite length_fmap.
  induction arr as [|f arr [IH1 IH2]]; [simpl; lia|].
  rewrite !filter_cons.
  destruct (decide (f ≠ 0)), (decide (f = 0)); simpl in *; try lia; congruence.
Qed.

Section StartupFacts.

Variable sizeof_initializer : positive.
Variables __preinit_array_start __preinit_array_end : Z.
Variables __init_array_start __init_array_end : Z.
Variables __fini_array_start __fini_array_end : Z.
Variable image : gmap Z Z.
Variable sig_trampoline : Z.
Variable main : Z -> list string -> main_outcome.

Local Abbreviation sz := (Z.pos sizeof_initializer).
Local Abbreviation slots := (slots sizeof_initializer).
Local Abbreviation run_slot := (run_slot image).
Local Abbreviation run_slots := (run_slots image).
Local Abbreviation callback_list_executor :=
  (callback_list_executor sizeof_initializer image).
Local Abbreviation array_at := (array_at sizeof_initializer image).
Local Abbreviation exec_preinit :=
  (exec_preinit sizeof_initializer __preinit_array_start __preinit_array_end image).
Local Abbreviation exec_init :=
  (exec_init sizeof_initializer __init_array_start __init_array_end image).
Local Abbreviation exec_fini :=
  (exec_fini sizeof_initializer __fini_array_start __fini_array_end image).
Local Abbreviation exec_phase :=
  (exec_phase sizeof_initializer
     __preinit_array_start __preinit_array_end
     __init_array_start __init_array_end
     __fini_array_start __fini_array_end image).
Local Abbreviation run_exitfuncs :=
  (run_exitfuncs sizeof_initializer __fini_array_start __fini_array_end image).
Local Abbreviation call_exitfunc :=
  (call_exitfunc sizeof_initializer __fini_array_start __fini_array_end image).
Local Abbreviation exit :=
  (exit sizeof_initializer __fini_array_start __fini_array_end image).
Local Abbreviation call_main :=
  (call_main sizeof_initializer __fini_array_start __fini_array_end image main).
Local Abbreviation linked :=
  (linked sizeof_initializer
     __preinit_array_start __preinit_array_end
     __init_array_start __init_array_end
     __fini_array_start __fini_array_end image).
Local Abbreviation __start cxx :=
  (__start cxx sizeof_initializer
     __preinit_array_start __preinit_array_end
     __init_array_start __init_array_end
     __fini_array_start __fini_array_end image sig_trampoline main).
Local Abbreviation phase_start :=
  (phase_start __preinit_array_start __init_array_start __fini_array_start).
Local Abbreviation phase_end :=
  (phase_end __preinit_array_end __init_array_end __fini_array_end).

(** ** The sequence of slots between two boundaries *)

Lemma slots_empty (p e : Z) : ¬ p < e -> slots p e = [].
Proof.
  intros Hge. unfold Crt1.slots, slot_count.
  assert (H : (e - p + sz - 1) / sz < 1)
    by (apply Z.div_lt_upper_bound; lia).
  replace (Z.to_nat ((e - p + sz - 1) / sz)) with 0%nat by lia.
  reflexivity.
Qed.

Lemma slots_step (p e : Z) : p < e -> slots p e = p :: slots (p + sz) e.
Proof.
  intros Hlt. unfold Crt1.slots, slot_count.
  replace (e - p + sz - 1) with (e - (p + sz) + sz - 1 + 1 * sz) by lia.
  rewrite Z.div_add by lia.
  assert (H : 0 <= (e - (p + sz) + sz - 1) / sz)
    by (apply Z.div_pos; lia).
  replace (Z.to_nat ((e - (p + sz) + sz - 1) / sz + 1))
    with (S (Z.to_nat ((e - (p + sz) + sz - 1) / sz))) by lia.
  cbn [seq fmap list_fmap]. f_equal; [lia|].
  rewrite <- seq_shift, <- list_fmap_compose.
  apply list_fmap_ext. intros i x _. simpl. lia.
Qed.

(** ** Each loop of crt1.c walks the slots between its boundaries *)

Lemma exec_preinit_from_slots (e p : Z) (w : world) :
  Crt1.exec_preinit_from sizeof_initializer e image p w
  = run_slots (slots p e) w.
Proof.
  remember (Z.to_nat (e - p)) as k eqn:Hk.
  revert p w Hk. induction k as [k IH] using lt_wf_ind. intros p w Hk.
  rewrite exec_preinit_from_equation_1.
  destruct (decide (p < e)) as [Hlt|Hge]; simpl.
  - rewrite slots_step by exact Hlt. simpl.
    unfold Crt1.run_slot, deref. unfold_monad.
    destruct (image !! p) as [f|]; [|reflexivity].
    destruct (decide (f ≠ 0)); simpl; eapply IH; try reflexivity; lia.
  - rewrite slots_empty by exact Hge. reflexivity.
Qed.

Lemma exec_init_from_slots (e p : Z) (w : world) :
  Crt1.exec_init_from sizeof_initializer e image p w
  = run_slots (slots p e) w.
Proof.
  remember (Z.to_nat (e - p)) as k eqn:Hk.
  revert p w Hk. induction k as [k IH] using lt_wf_ind. intros p w Hk.
  rewrite exec_init_from_equation_1.
  destruct (decide (p < e)) as [Hlt|Hge]; simpl.
  - rewrite slots_step by exact Hlt. simpl.
    unfold Crt1.run_slot, deref. unfold_monad.
    destruct (image !! p) as [f|]; [|reflexivity].
    destruct (decide (f ≠ 0)); simpl; eapply IH; try reflexivity; lia.
  - rewrite slots_empty by exact Hge. reflexivity.
Qed.

Lemma exec_fini_from_slots (e p : Z) (w : world) :
  Crt1.exec_fini_from sizeof_initializer e image p w
  = run_slots (slots p e) w.
Proof.
  remember (Z.to_nat (e - p)) as k eqn:Hk.
  revert p w Hk. induction k as [k IH] using lt_wf_ind. intros p w Hk.
  rewrite exec_fini_from_equation_1.
  destruct (decide (p < e)) as [Hlt|Hge]; simpl.
  - rewrite slots_step by exact Hlt. simpl.
    unfold Crt1.run_slot, deref. unfold_monad.
    destruct (image !! p) as [f|]; [|reflexivity].
    destruct (decide (f ≠ 0)); simpl; eapply IH; try reflexivity; lia.
  - rewrite slots_empty by exact Hge. reflexivity.
Qed.

Lemma exec_phase_slots (ph : phase) (w : world) :
  exec_phase ph w = callback_list_executor (phase_start ph) (phase_end ph) w.
Proof.
  destruct ph; simpl.
  - apply exec_preinit_from_slots.
  - apply exec_init_from_slots.
  - apply exec_fini_from_slots.
Qed.

(** ** Walking an array the image holds *)

Lemma array_at_tail (p e f : Z) (arr : list Z) :
  array_at p e (f :: arr) ->
  p < e /\ image !! p = Some f /\ array_at (p + sz) e arr.
Proof.
  intros [He Hat]. simpl length in He. split; [lia|]. split.
  - specialize (Hat 0%nat f eq_refl).
    replace (p + sz * Z.of_nat 0) with p in Hat by lia. exact Hat.
  - split; [lia|]. intros i g Hi.
    specialize (Hat (S i) g Hi).
    replace (p + sz + sz * Z.of_nat i) with (p + sz * Z.of_nat (S i)) by lia.
    exact Hat.
Qed.

Lemma run_slots_array (arr : list Z) (p e : Z) (w : world) :
  array_at p e arr ->
  run_slots (slots p e) w = Returned tt (log w (invocations arr)).
Proof.
  revert p w. induction arr as [|f arr IH]; intros p w Hat.
  - destruct Hat as [He _]. simpl in He.
    rewrite slots_empty by lia. simpl.
    unfold invocations; simpl. rewrite log_nil. reflexivity.
  - apply array_at_tail in Hat as (Hlt & Hp & Hrest).
    rewrite slots_step by exact Hlt. simpl.
    unfold Crt1.run_slot, deref. unfold_monad. rewrite Hp.
    rewrite invocations_cons.
    destruct (decide (f ≠ 0)); simpl.
    + unfold call, emit. rewrite (IH _ _ Hrest), log_log. reflexivity.
    + rewrite (IH _ _ Hrest). reflexivity.
Qed.

Lemma exec_phase_array (ph : phase) (arr : list Z) (w : world) :
  array_at (phase_start ph) (phase_end ph) arr ->
  exec_phase ph w = Returned tt (log w (invocations arr)).
Proof.
  intros Hat. rewrite exec_phase_slots. apply run_slots_array, Hat.
Qed.

(** C9.  Each of the three runners of crt1.c is, on every world, the one
    generic executor of an ordered callback list applied to the boundary
    pair the runner is given; so for any one pair the three do the same. *)
Theorem runners_are_one_executor (start end_ : Z) (w : world) :
  Crt1.exec_preinit sizeof_initializer start end_ image w
  = callback_list_executor start end_ w
  /\ Crt1.exec_init sizeof_initializer start end_ image w
     = callback_list_executor start end_ w
  /\ Crt1.exec_fini sizeof_initializer start end_ image w
     = callback_list_executor start end_ w.
Proof.
  split; [|split].
  - apply exec_preinit_from_slots.
  - apply exec_init_from_slots.
  - apply exec_fini_from_slots.
Qed.

(** C3.  Whichever phase it is (pre-init, init or fini), when the image
    holds the array [arr] between the phase's boundaries, the runner of the
    phase returns after invoking the non-null entries of [arr], each once,
    in the order of the array (ascending addresses), and nothing else; they
    are as many as the length of the array less its null entries. *)
Theorem runner_invokes_nonnull_in_order (ph : phase) (arr : list Z) (w : world) :
  array_at (phase_start ph) (phase_end ph) arr ->
  exec_phase ph w
  = Returned tt (log w (EvInvoke <$> filter (fun f => f ≠ 0) arr))
  /\ length (filter (fun f => f ≠ 0) arr)
     = (length arr - null_entries arr)%nat.
Proof.
  intros Hat. split.
  - apply exec_phase_array, Hat.
  - pose proof (invocations_count arr) as [Hn _].
    unfold invocations in Hn. rewrite length_fmap in Hn. exact Hn.
Qed.

(** C8.  Whichever phase it is, when its start boundary equals its end
    boundary the runner returns at once: nothing is invoked, the world is
    as it was, and nothing is read, whatever the image maps or does not
    map. *)
Theorem runner_empty_range (ph : phase) (w : world) :
  phase_start ph = phase_end ph ->
  exec_phase ph w = Returned tt w.
Proof.
  intros Heq. rewrite exec_phase_slots.
  unfold Crt1.callback_list_executor.
  rewrite slots_empty by lia. reflexivity.
Qed.

(** ** Computations that leave the reserved data area alone *)

Lemma keeps_mret {A} (a : A) : keeps_sigtramp (mret a : M A).
Proof.
  intros w. split; [reflexivity|]. exists []. simpl.
  rewrite app_nil_r. split; [reflexivity|]. intros a' Hin. inversion Hin.
Qed.

Lemma keeps_bind {A B} (c : M A) (f : A -> M B) :
  keeps_sigtramp c -> (forall a, keeps_sigtramp (f a)) ->
  keeps_sigtramp (c ≫= f).
Proof.
  intros Hc Hf w. specialize (Hc w). unfold_monad.
  destruct (c w) as [a w1|s w1|w1]; simpl in *; try exact Hc.
  destruct Hc as (Har & evs1 & Htr & Hno).
  destruct (Hf a w1) as (Har2 & evs2 & Htr2 & Hno2).
  split; [congruence|]. exists (evs1 ++ evs2). split.
  - rewrite Htr2, Htr, app_assoc. reflexivity.
  - intros a' Hin. apply elem_of_app in Hin as [Hin|Hin].
    + exact (Hno a' Hin).
    + exact (Hno2 a' Hin).
Qed.

Lemma keeps_pointwise {A} (c c' : M A) :
  (forall w, c w = c' w) -> keeps_sigtramp c' -> keeps_sigtramp c.
Proof. intros Heq Hc w. rewrite Heq. apply Hc. Qed.

Lemma keeps_emit (e : event) :
  (forall a, e ≠ EvSigtramp a) -> keeps_sigtramp (emit e).
Proof.
  intros Hne w. split; [reflexivity|]. exists [e]. split; [reflexivity|].
  intros a Hin. apply list_elem_of_singleton in Hin. exact (Hne a (eq_sym Hin)).
Qed.

Lemma keeps_call (f : Z) : keeps_sigtramp (call f).
Proof. apply keeps_emit. discriminate. Qed.

Lemma keeps_deref (p : Z) : keeps_sigtramp (deref image p).
Proof.
  intros w. unfold deref. destruct (image !! p); simpl.
  - apply (keeps_mret 0 w).
  - apply (keeps_mret 0 w).
Qed.

Lemma keeps_run_slots (ps : list Z) : keeps_sigtramp (run_slots ps).
Proof.
  induction ps as [|p ps IH]; simpl.
  - apply keeps_mret.
  - apply keeps_bind; [|intros _; exact IH].
    apply keeps_bind; [apply keeps_deref|].
    intros f. destruct (decide (f ≠ 0)); [apply keeps_call|apply keeps_mret].
Qed.

Lemma keeps_exec_preinit (s e : Z) :
  keeps_sigtramp (Crt1.exec_preinit sizeof_initializer s e image).
Proof.
  eapply keeps_pointwise; [apply exec_preinit_from_slots|apply keeps_run_slots].
Qed.

Lemma keeps_exec_init (s e : Z) :
  keeps_sigtramp (Crt1.exec_init sizeof_initializer s e image).
Proof.
  eapply keeps_pointwise; [apply exec_init_from_slots|apply keeps_run_slots].
Qed.

Lemma keeps_exec_fini (s e : Z) :
  keeps_sigtramp (Crt1.exec_fini sizeof_initializer s e image).
Proof.
  eapply keeps_pointwise; [apply exec_fini_from_slots|apply keeps_run_slots].
Qed.

Lemma keeps_atexit (f : exitfunc) : keeps_sigtramp (atexit f).
Proof.
  intros w. split; [reflexivity|]. exists [EvAtexit f]. split; [reflexivity|].
  intros a Hin. apply list_elem_of_singleton in Hin. discriminate.
Qed.

Lemma keeps_set_exitfuncs (fs : list exitfunc) :
  keeps_sigtramp (set_exitfuncs fs).
Proof.
  intros w. split; [reflexivity|]. exists []. simpl. rewrite app_nil_r.
  split; [reflexivity|]. intros a Hin. inversion Hin.
Qed.

Lemma keeps_run_exitfuncs (fs : list exitfunc) :
  keeps_sigtramp (run_exitfuncs fs).
Proof.
  induction fs as [|f fs IH]; simpl.
  - apply keeps_mret.
  - apply keeps_bind; [apply keeps_set_exitfuncs|]. intros _.
    apply keeps_bind; [|intros _; exact IH].
    destruct f; simpl; [apply keeps_exec_fini|apply keeps_call].
Qed.

Lemma keeps_exit {A} (status : Z) : keeps_sigtramp (exit status : M A).
Proof.
  intros w. unfold Crt1.exit.
  pose proof (keeps_bind (emit (EvExit status))
                (fun _ => run_exitfuncs (exitfuncs w))
                (keeps_emit (EvExit status) ltac:(discriminate))
                (fun _ => keeps_run_exitfuncs _) w) as Hk.
  destruct ((emit (EvExit status) ≫= _) w); exact Hk.
Qed.

Lemma keeps_call_main (argc : Z) (argv : list string) :
  keeps_sigtramp (call_main argc argv).
Proof.
  unfold Crt1.call_main. apply keeps_bind.
  - apply keeps_emit. discriminate.
  - intros _. destruct (main argc argv); [apply keeps_mret|apply keeps_exit].
Qed.

(** ** The whole of a task's life *)

Lemma exit_empty {A} (status : Z) (w : world) :
  exitfuncs w = [] ->
  (exit status : M A) w = Terminated status (log w [EvExit status]).
Proof. intros Hno. unfold Crt1.exit. rewrite Hno. reflexivity. Qed.

Lemma start_runs (cxx : bool) (pre ini fin : list Z)
    (argc : Z) (argv : list string) (w : world) :
  exitfuncs w = [] ->
  (cxx = true -> linked pre ini fin) ->
  __start cxx argc argv w
  = Terminated (status_of (main argc argv))
      {| ar_sigtramp := sig_trampoline;
         exitfuncs := [];
         trace :=
           trace w
             ++ EvSigtramp sig_trampoline
             :: (if cxx
                 then invocations pre ++ invocations ini
                        ++ [EvAtexit Fn_exec_fini]
                 else [])
             ++ [EvMain argc argv; EvExit (status_of (main argc argv))]
             ++ (if cxx then invocations fin else []) |}.
Proof.
  intros Hno Hlink. unfold Crt1.__start.
  destruct cxx.
  - destruct (Hlink eq_refl) as (Hpre & Hini & Hfin).
    pose proof (exec_phase_array PreInit pre) as Epre.
    pose proof (exec_phase_array Init ini) as Eini.
    pose proof (exec_phase_array Fini fin) as Efin.
    simpl in Epre, Eini, Efin.
    unfold_monad. unfold set_ar_sigtramp.
    rewrite (Epre _ Hpre), (Eini _ Hini).
    unfold atexit, Crt1.call_main, Crt1.exit, emit. unfold_monad. simpl.
    rewrite Hno.
    destruct (main argc argv) as [ret|status]; simpl;
      unfold Crt1.exit, emit, set_exitfuncs; unfold_monad; simpl;
      rewrite (Efin _ Hfin); simpl; unfold log; simpl;
      repeat (rewrite <- app_assoc; simpl); reflexivity.
  - unfold_monad. unfold set_ar_sigtramp, Crt1.call_main, Crt1.exit, emit.
    unfold_monad. simpl. rewrite Hno.
    destruct (main argc argv) as [ret|status]; simpl;
      unfold Crt1.exit, emit; unfold_monad; simpl; try rewrite Hno; simpl;
      unfold log; simpl;
      repeat (rewrite <- app_assoc; simpl); reflexivity.
Qed.

Lemma exit_not_invocation (s : Z) (arr : list Z) :
  EvExit s ∉ invocations arr.
Proof.
  unfold invocations. intros Hin.
  apply list_elem_of_fmap in Hin as (f & Hf & _). discriminate.
Qed.

Lemma run_slots_not_terminated (ps : list Z) (w w' : world) (s : Z) :
  run_slots ps w ≠ Terminated s w'.
Proof.
  revert w. induction ps as [|p ps IH]; intros w; simpl; [discriminate|].
  unfold Crt1.run_slot, deref, call, emit. unfold_monad.
  destruct (image !! p) as [f|]; [|discriminate].
  destruct (decide (f ≠ 0)); simpl; apply IH.
Qed.

(** C2.  For a task whose main returns, started with no exit function
    registered and (where CONFIG_HAVE_CXX is defined) with the three arrays
    in the image, [__start] does these things and no others, in this order:
    the store of the trampoline's address; with CONFIG_HAVE_CXX the
    pre-init entries, the init entries, the registration of [exec_fini];
    the call of main with argc and argv; the call of exit with the value
    main returned (which then runs what was registered). *)
Theorem start_sequence (cxx : bool) (pre ini fin : list Z)
    (argc : Z) (argv : list string) (ret : Z) (w : world) :
  main argc argv = MainReturns ret ->
  exitfuncs w = [] ->
  (cxx = true -> linked pre ini fin) ->
  exists w',
    __start cxx argc argv w = Terminated ret w'
    /\ trace w'
       = trace w
           ++ [EvSigtramp sig_trampoline]
           ++ (if cxx
               then invocations pre ++ invocations ini
                      ++ [EvAtexit Fn_exec_fini]
               else [])
           ++ [EvMain argc argv; EvExit ret]
           ++ (if cxx then invocations fin else []).
Proof.
  intros Hmain Hno Hlink.
  rewrite (start_runs cxx pre ini fin argc argv w Hno Hlink), Hmain.
  eexists. split; reflexivity.
Qed.

(** C4.  Whatever the configuration, the image and main, [__start] first
    stores the trampoline's address in the reserved data area and never
    stores to it again: the field holds the address in the world the run
    ends in, the store is the first thing the run does and the only one of
    its kind, main is called in a world whose field holds the address
    (unless an initializer array was not mapped and the start-up faulted
    before main), and every other operation of the unit leaves the field as
    it finds it. *)
Theorem ar_sigtramp_written_once (cxx : bool)
    (argc : Z) (argv : list string) (w : world) :
  ar_sigtramp (world_of (__start cxx argc argv w)) = sig_trampoline
  /\ (exists rest,
        trace (world_of (__start cxx argc argv w))
        = trace w ++ EvSigtramp sig_trampoline :: rest
        /\ forall a, EvSigtramp a ∉ rest)
  /\ ((exists w1,
         ar_sigtramp w1 = sig_trampoline
         /\ __start cxx argc argv w
            = (ret ← call_main argc argv; (exit ret : M Empty_set)) w1)
      \/ (exists w', __start cxx argc argv w = Faulted w'))
  /\ keeps_sigtramp exec_preinit
  /\ keeps_sigtramp exec_init
  /\ keeps_sigtramp exec_fini
  /\ (forall f, keeps_sigtramp (atexit f))
  /\ keeps_sigtramp (call_main argc argv)
  /\ (forall status, keeps_sigtramp (exit status : M Empty_set)).
Proof.
  set (w0 := {| ar_sigtramp := sig_trampoline;
                exitfuncs := exitfuncs w;
                trace := trace w ++ [EvSigtramp sig_trampoline] |}).
  set (startup :=
         if cxx
         then exec_preinit ;; exec_init ;; atexit Fn_exec_fini ;; mret tt
         else mret tt).
  assert (Hstartup : keeps_sigtramp startup).
  { unfold startup. destruct cxx; [|apply keeps_mret].
    apply keeps_bind; [apply keeps_exec_preinit|]. intros _.
    apply keeps_bind; [apply keeps_exec_init|]. intros _.
    apply keeps_bind; [apply keeps_atexit|]. intros _. apply keeps_mret. }
  assert (Hrest : keeps_sigtramp
                    (startup ;;
                     ret ← call_main argc argv; (exit ret : M Empty_set))).
  { apply keeps_bind; [exact Hstartup|]. intros _.
    apply keeps_bind; [apply keeps_call_main|]. intros r. apply keeps_exit. }
  assert (Hrun : __start cxx argc argv w
                 = (startup ;;
                    ret ← call_main argc argv; (exit ret : M Empty_set)) w0)
    by reflexivity.
  rewrite Hrun.
  destruct (Hrest w0) as (Har & evs & Htr & Hnone).
  split; [exact Har|]. split.
  { exists evs. split; [|exact Hnone].
    rewrite Htr. simpl. rewrite <- app_assoc. reflexivity. }
  split.
  { destruct (Hstartup w0) as (Har1 & _).
    destruct (startup w0) as [[] w1|s w1|w1] eqn:Hs; simpl in Har1.
    - left. exists w1. split; [exact Har1|].
      erewrite bind_returned by exact Hs. reflexivity.
    - exfalso. unfold startup in Hs. destruct cxx; [|discriminate].
      unfold_monad. unfold Crt1.exec_preinit, Crt1.exec_init in Hs.
      rewrite exec_preinit_from_slots in Hs.
      destruct (run_slots _ w0) as [[] wa|sa wa|wa] eqn:Ha;
        [|exact (run_slots_not_terminated _ _ _ _ Ha)|discriminate].
      rewrite exec_init_from_slots in Hs.
      destruct (run_slots _ wa) as [[] wb|sb wb|wb] eqn:Hb;
        [|exact (run_slots_not_terminated _ _ _ _ Hb)|discriminate].
      discriminate.
    - right. exists w1. erewrite bind_faulted by exact Hs. reflexivity. }
  split; [apply keeps_exec_preinit|].
  split; [apply keeps_exec_init|].
  split; [apply keeps_exec_fini|].
  split; [apply keeps_atexit|].
  split; [apply keeps_call_main|].
  intros status. apply keeps_exit.
Qed.

(** C5.  For a task whose main returns [ret], started with no exit function
    registered and (where CONFIG_HAVE_CXX is defined) with the three arrays
    in the image, the task terminates with exit status [ret]: the call of
    exit follows the call of main at once, its argument is [ret] as main
    returned it, and exit is called that one time only. *)
Theorem exit_status_is_main_return (cxx : bool) (pre ini fin : list Z)
    (argc : Z) (argv : list string) (ret : Z) (w : world) :
  main argc argv = MainReturns ret ->
  exitfuncs w = [] ->
  (cxx = true -> linked pre ini fin) ->
  exists w' before after,
    __start cxx argc argv w = Terminated ret w'
    /\ trace w' = trace w ++ before ++ [EvMain argc argv; EvExit ret] ++ after
    /\ forall s, EvExit s ∉ before ++ after.
Proof.
  intros Hmain Hno Hlink.
  rewrite (start_runs cxx pre ini fin argc argv w Hno Hlink), Hmain.
  eexists.
  exists (EvSigtramp sig_trampoline
            :: (if cxx
                then invocations pre ++ invocations ini
                       ++ [EvAtexit Fn_exec_fini]
                else [])),
         (if cxx then invocations fin else []).
  split; [reflexivity|]. split.
  - reflexivity.
  - intros s Hin. destruct cxx; simpl in Hin.
    + rewrite !elem_of_cons, !elem_of_app, !elem_of_cons in Hin.
      destruct Hin as [Hin|[[Hin|[Hin|[Hin|Hin]]]|Hin]]; try discriminate;
        try (eapply exit_not_invocation; exact Hin).
      inversion Hin.
    + apply list_elem_of_singleton in Hin. discriminate.
Qed.

(** C6, as the code has it.  With CONFIG_HAVE_CXX defined, for a task
    started with no exit function registered and the three arrays in the
    image, whatever main does (return, or call exit itself): [exec_fini] is
    registered before main is called; nothing of the fini array is invoked
    before main; the non-null fini entries are invoked once each, after the
    call of exit that ends main; the registry is empty from then on, so a
    further call of exit invokes nothing. *)
Theorem fini_once_at_exit (pre ini fin : list Z)
    (argc : Z) (argv : list string) (w : world) :
  exitfuncs w = [] ->
  linked pre ini fin ->
  exists w',
    __start true argc argv w = Terminated (status_of (main argc argv)) w'
    /\ trace w'
       = trace w
           ++ (EvSigtramp sig_trampoline
                 :: invocations pre ++ invocations ini)
           ++ [EvAtexit Fn_exec_fini;
               EvMain argc argv;
               EvExit (status_of (main argc argv))]
           ++ invocations fin
    /\ exitfuncs w' = []
    /\ forall status,
         (exit status : M Empty_set) w'
         = Terminated status (log w' [EvExit status]).
Proof.
  intros Hno Hlink.
  rewrite (start_runs true pre ini fin argc argv w Hno (fun _ => Hlink)).
  eexists. split; [reflexivity|]. split.
  - simpl. repeat (rewrite <- app_assoc; simpl). reflexivity.
  - split; [reflexivity|]. intros status. apply exit_empty. reflexivity.
Qed.

(** C10.  With CONFIG_HAVE_CXX undefined, [__start] goes from the store of
    the trampoline's address straight to main, with the registry as it found
    it; for a task started with no exit function registered, whatever the
    image holds between the boundaries: nothing is registered, nothing is
    invoked, before main or at exit. *)
Theorem start_without_cxx (argc : Z) (argv : list string) (w : world) :
  exitfuncs w = [] ->
  __start false argc argv w
  = (ret ← call_main argc argv; (exit ret : M Empty_set))
      {| ar_sigtramp := sig_trampoline;
         exitfuncs := [];
         trace := trace w ++ [EvSigtramp sig_trampoline] |}
  /\ exists w',
       __start false argc argv w
       = Terminated (status_of (main argc argv)) w'
       /\ trace w'
          = trace w
              ++ [EvSigtramp sig_trampoline;
                  EvMain argc argv;
                  EvExit (status_of (main argc argv))]
       /\ exitfuncs w' = [].
Proof.
  intros Hno. split.
  - unfold Crt1.__start, set_ar_sigtramp. unfold_monad. rewrite Hno.
    reflexivity.
  - rewrite (start_runs false [] [] [] argc argv w Hno)
      by (intros Hcxx; discriminate).
    eexists. split; [reflexivity|]. split; reflexivity.
Qed.

(** ** Further properties of the runners and of the start-up *)

Lemma slots_bounds (s e p : Z) : p ∈ slots s e -> s <= p < e.
Proof.
  unfold Crt1.slots, slot_count. intros Hin.
  apply list_elem_of_fmap in Hin as (i & -> & Hi).
  apply elem_of_seq in Hi. simpl in Hi.
  destruct (decide (s < e)) as [Hlt|Hge].
  - pose proof (Z.mul_div_le (e - s + sz - 1) sz ltac:(lia)) as Hdiv.
    assert (H0 : 0 <= (e - s + sz - 1) / sz) by (apply Z.div_pos; lia).
    nia.
  - assert (H : (e - s + sz - 1) / sz < 1)
      by (apply Z.div_lt_upper_bound; lia).
    lia.
Qed.

Lemma slots_split (k : nat) (s e : Z) :
  s + sz * Z.of_nat k <= e ->
  slots s e = slots s (s + sz * Z.of_nat k) ++ slots (s + sz * Z.of_nat k) e.
Proof.
  revert s. induction k as [|k IH]; intros s Hle.
  - replace (s + sz * Z.of_nat 0) with s by lia.
    rewrite (slots_empty s s) by lia. reflexivity.
  - rewrite (slots_step s e) by lia.
    rewrite (slots_step s (s + sz * Z.of_nat (S k))) by lia.
    replace (s + sz * Z.of_nat (S k)) with (s + sz + sz * Z.of_nat k) by lia.
    rewrite (IH (s + sz)) by lia. reflexivity.
Qed.

Lemma run_slots_app (ps qs : list Z) (w : world) :
  run_slots (ps ++ qs) w = (run_slots ps ;; run_slots qs) w.
Proof.
  revert w. induction ps as [|p ps IH]; intros w; simpl; [reflexivity|].
  unfold_monad.
  destruct (run_slot p w) as [[] w1|s1 w1|w1]; try reflexivity.
  apply IH.
Qed.

(** What walking a list of slots can do to the world, whatever its
    outcome. *)
Lemma run_slots_footprint (ps : list Z) (w : world) :
  (forall s w', run_slots ps w <> Terminated s w')
  /\ ar_sigtramp (world_of (run_slots ps w)) = ar_sigtramp w
  /\ exitfuncs (world_of (run_slots ps w)) = exitfuncs w
  /\ exists evs,
       trace (world_of (run_slots ps w)) = trace w ++ evs
       /\ Forall (fun ev => exists f p,
                    ev = EvInvoke f /\ f ≠ 0
                    /\ p ∈ ps /\ image !! p = Some f) evs.
Proof.
  revert w. induction ps as [|p ps IH]; intros w.
  - simpl. split; [discriminate|]. split; [reflexivity|].
    split; [reflexivity|]. exists []. rewrite app_nil_r.
    split; [reflexivity|constructor].
  - simpl. unfold Crt1.run_slot, deref, call, emit. unfold_monad.
    destruct (image !! p) as [f|] eqn:Hp.
    + assert (Hweak :
        forall evs : list event,
          Forall (fun ev => exists f p,
                    ev = EvInvoke f /\ f ≠ 0
                    /\ p ∈ ps /\ image !! p = Some f) evs ->
          Forall (fun ev => exists f p0,
                    ev = EvInvoke f /\ f ≠ 0
                    /\ p0 ∈ p :: ps /\ image !! p0 = Some f) evs).
      { intros evs Hevs. eapply Forall_impl; [exact Hevs|].
        intros ev (g & q & Hev & Hg & Hq & Hiq).
        exists g, q. rewrite elem_of_cons. auto. }
      destruct (decide (f ≠ 0)) as [Hf|Hf]; simpl.
      * destruct (IH (log w [EvInvoke f])) as (Hnt & Har & Hex & evs & Htr & Hall).
        split; [exact Hnt|]. split; [exact Har|]. split; [exact Hex|].
        exists (EvInvoke f :: evs). split.
        -- rewrite Htr. simpl. rewrite <- app_assoc. reflexivity.
        -- constructor; [|apply Hweak, Hall].
           exists f, p. rewrite elem_of_cons. auto.
      * destruct (IH w) as (Hnt & Har & Hex & evs & Htr & Hall).
        split; [exact Hnt|]. split; [exact Har|]. split; [exact Hex|].
        exists evs. split; [exact Htr|apply Hweak, Hall].
    + simpl. split; [discriminate|]. split; [reflexivity|].
      split; [reflexivity|]. exists []. rewrite app_nil_r.
      split; [reflexivity|constructor].
Qed.

(** X5.  A runner whose end boundary lies at or below its start boundary
    does nothing: the loop test is [<], so a reversed pair is the same
    no-op as an empty one, whatever the image maps. *)
Theorem runner_reversed_range (ph : phase) (w : world) :
  phase_end ph <= phase_start ph ->
  exec_phase ph w = Returned tt w.
Proof.
  intros Hle. rewrite exec_phase_slots.
  unfold Crt1.callback_list_executor.
  rewrite slots_empty by lia. reflexivity.
Qed.

(** X6.  Whatever the image holds and however the walk ends, a runner never
    calls a null pointer and never calls anything but the word it read from
    a slot inside its boundaries: every step it adds to the trace is the
    invocation of a non-null [f] that the image holds at some [p] with
    start <= p < end. *)
Theorem runner_calls_only_nonnull_slots (ph : phase) (w : world) :
  exists evs,
    trace (world_of (exec_phase ph w)) = trace w ++ evs
    /\ Forall (fun ev => exists f p,
                 ev = EvInvoke f /\ f ≠ 0
                 /\ phase_start ph <= p < phase_end ph
                 /\ image !! p = Some f) evs.
Proof.
  rewrite exec_phase_slots. unfold Crt1.callback_list_executor.
  destruct (run_slots_footprint (slots (phase_start ph) (phase_end ph)) w)
    as (_ & _ & _ & evs & Htr & Hall).
  exists evs. split; [exact Htr|].
  eapply Forall_impl; [exact Hall|].
  intros ev (f & p & Hev & Hf & Hp & Hip).
  exists f, p. repeat split; try assumption; apply (slots_bounds _ _ _ Hp).
Qed.


(** X8.  Walking a range is walking a first part of it and then the rest:
    for a cut [k] slots above the start and not above the end, each runner
    over [start, cut) followed by the same runner over [cut, end) does, on
    every world, what it does over [start, end). *)
Theorem runner_splits (k : nat) (start end_ : Z) (w : world) :
  start + sz * Z.of_nat k <= end_ ->
  let cut := start + sz * Z.of_nat k in
  (Crt1.exec_preinit sizeof_initializer start cut image ;;
   Crt1.exec_preinit sizeof_initializer cut end_ image) w
  = Crt1.exec_preinit sizeof_initializer start end_ image w
  /\ (Crt1.exec_init sizeof_initializer start cut image ;;
      Crt1.exec_init sizeof_initializer cut end_ image) w
     = Crt1.exec_init sizeof_initializer start end_ image w
  /\ (Crt1.exec_fini sizeof_initializer start cut image ;;
      Crt1.exec_fini sizeof_initializer cut end_ image) w
     = Crt1.exec_fini sizeof_initializer start end_ image w.
Proof.
  intros Hle cut.
  assert (Hsplit :
    (run_slots (slots start cut) ;; run_slots (slots cut end_)) w
    = run_slots (slots start end_) w).
  { rewrite (slots_split k start end_ Hle), run_slots_app. reflexivity. }
  unfold Crt1.exec_preinit, Crt1.exec_init, Crt1.exec_fini.
  rewrite exec_preinit_from_slots, exec_init_from_slots,
    exec_fini_from_slots, <- Hsplit.
  repeat split; apply bind_pointwise; intros;
    first [ apply exec_preinit_from_slots
          | apply exec_init_from_slots
          | apply exec_fini_from_slots ].
Qed.

(** X9.  A runner stops at the first slot it cannot read: when the image
    holds [arr] from the start boundary up to [cut], [cut] is still below
    the end boundary and is not mapped, the runner faults there, having
    invoked the non-null entries of [arr] in order and nothing after. *)
Theorem runner_faults_at_unmapped_slot (ph : phase) (arr : list Z)
    (cut : Z) (w : world) :
  array_at (phase_start ph) cut arr ->
  cut < phase_end ph ->
  image !! cut = None ->
  exec_phase ph w = Faulted (log w (invocations arr)).
Proof.
  intros Hat Hlt Hnone. rewrite exec_phase_slots.
  unfold Crt1.callback_list_executor.
  pose proof Hat as [Hcut _].
  rewrite (slots_split (length arr) (phase_start ph) (phase_end ph))
    by lia.
  rewrite <- Hcut, run_slots_app.
  erewrite bind_returned by (apply run_slots_array, Hat).
  rewrite slots_step by exact Hlt. simpl.
  unfold Crt1.run_slot, deref. unfold_monad. rewrite Hnone. reflexivity.
Qed.

(** X10.  A fault in the pre-init or the init walk is the end of the task's
    start-up: [__start] faults in the same world, with the store of the
    trampoline's address and invocations of initializers behind it and
    nothing else; [exec_fini] is not registered, main is not called, exit
    is not called. *)
Theorem start_faults_before_main (argc : Z) (argv : list string)
    (w w1 : world) :
  (exec_preinit ;; exec_init)
    {| ar_sigtramp := sig_trampoline;
       exitfuncs := exitfuncs w;
       trace := trace w ++ [EvSigtramp sig_trampoline] |}
  = Faulted w1 ->
  __start true argc argv w = Faulted w1
  /\ exitfuncs w1 = exitfuncs w
  /\ exists evs,
       trace w1 = trace w ++ EvSigtramp sig_trampoline :: evs
       /\ Forall (fun ev => exists f, ev = EvInvoke f) evs.
Proof.
  set (w0 := {| ar_sigtramp := sig_trampoline;
                exitfuncs := exitfuncs w;
                trace := trace w ++ [EvSigtramp sig_trampoline] |}).
  intros Hfault. split.
  - unfold Crt1.__start, set_ar_sigtramp. fold w0.
    unfold_monad. fold w0.
    destruct (exec_preinit w0) as [[] wa|sa wa|wa]; try discriminate.
    + destruct (exec_init wa) as [[] wb|sb wb|wb]; try discriminate.
      inversion Hfault. reflexivity.
    + inversion Hfault. reflexivity.
  - assert (Hweak :
      forall (ps : list Z) (evs : list event),
        Forall (fun ev => exists f p,
                  ev = EvInvoke f /\ f ≠ 0
                  /\ p ∈ ps /\ image !! p = Some f) evs ->
        Forall (fun ev => exists f, ev = EvInvoke f) evs).
    { intros ps evs Hevs. eapply Forall_impl; [exact Hevs|].
      intros ev (f & _ & Hev & _). exists f. exact Hev. }
    unfold_monad.
    unfold Crt1.exec_preinit, Crt1.exec_init in Hfault.
    rewrite exec_preinit_from_slots in Hfault.
    destruct (run_slots_footprint
                (slots __preinit_array_start __preinit_array_end) w0)
      as (_ & _ & Hex1 & evs1 & Htr1 & Hall1).
    destruct (run_slots (slots __preinit_array_start __preinit_array_end) w0)
      as [[] wa|sa wa|wa]; try discriminate; simpl in Hex1, Htr1.
    + rewrite exec_init_from_slots in Hfault.
      destruct (run_slots_footprint
                  (slots __init_array_start __init_array_end) wa)
        as (_ & _ & Hex2 & evs2 & Htr2 & Hall2).
      rewrite Hfault in Hex2, Htr2. simpl in Hex2, Htr2.
      split; [congruence|]. exists (evs1 ++ evs2). split.
      * rewrite Htr2, Htr1. simpl. rewrite <- !app_assoc. reflexivity.
      * apply Forall_app. split; eapply Hweak; eassumption.
    + inversion Hfault; subst wa.
      split; [exact Hex1|]. exists evs1. split.
      * rewrite Htr1. simpl. rewrite <- app_assoc. reflexivity.
      * eapply Hweak; eassumption.
Qed.

End StartupFacts.

(** ** The sample task *)

Lemma sample_linked :
  linked 8 0x1000 0x1000 0x2000 0x2018 0x3000 0x3010 sample_image
    [] [0x100; 0; 0x200] [0x300; 0x400].
Proof.
  repeat split; try reflexivity.
  - intros i f Hi. destruct i; discriminate.
  - intros [|[|[|i]]] f Hi; simpl in Hi; inversion Hi; reflexivity.
  - intros [|[|i]] f Hi; simpl in Hi; inversion Hi; reflexivity.
Qed.

(** The two scenarios of the specification's section 8, and a main that
    calls exit itself. *)
Example scenario_init_A_null_B :
  __start true 8 0x1000 0x1000 0x2000 0x2018 0x3000 0x3000
    sample_image 0x5000 (fun _ _ => MainReturns 0) 1 ["app"%string] fresh
  = Terminated 0
      {| ar_sigtramp := 0x5000;
         exitfuncs := [];
         trace := [ EvSigtramp 0x5000;
                    EvInvoke 0x100; EvInvoke 0x200;
                    EvAtexit Fn_exec_fini;
                    EvMain 1 ["app"%string]; EvExit 0 ] |}.
Proof. vm_compute. reflexivity. Qed.

Example scenario_fini_C_D :
  __start true 8 0x1000 0x1000 0x2000 0x2000 0x3000 0x3010
    sample_image 0x5000 (fun _ _ => MainReturns 7) 1 ["app"%string] fresh
  = Terminated 7
      {| ar_sigtramp := 0x5000;
         exitfuncs := [];
         trace := [ EvSigtramp 0x5000;
                    EvAtexit Fn_exec_fini;
                    EvMain 1 ["app"%string]; EvExit 7;
                    EvInvoke 0x300; EvInvoke 0x400 ] |}.
Proof. vm_compute. reflexivity. Qed.

Example scenario_main_calls_exit :
  __start true 8 0x1000 0x1000 0x2000 0x2018 0x3000 0x3010
    sample_image 0x5000 (fun _ _ => MainExits 3) 1 ["app"%string] fresh
  = Terminated 3
      {| ar_sigtramp := 0x5000;
         exitfuncs := [];
         trace := [ EvSigtramp 0x5000;
                    EvInvoke 0x100; EvInvoke 0x200;
                    EvAtexit Fn_exec_fini;
                    EvMain 1 ["app"%string]; EvExit 3;
                    EvInvoke 0x300; EvInvoke 0x400 ] |}.
Proof. vm_compute. reflexivity. Qed.

(** An array boundary the image does not map is a fault, not a return. *)
Example scenario_unmapped_array :
  exec_init 8 0x2000 0x2020 sample_image fresh
  = Faulted (log fresh [EvInvoke 0x100; EvInvoke 0x200]).
Proof. vm_compute. reflexivity. Qed.

Lemma start_sequence_witness :
  exists w',
    sample_start true fresh = Terminated 7 w'
    /\ trace w'
       = [ EvSigtramp 0x5000;
           EvInvoke 0x100; EvInvoke 0x200;
           EvAtexit Fn_exec_fini;
           EvMain 1 ["app"%string]; EvExit 7;
           EvInvoke 0x300; EvInvoke 0x400 ].
Proof.
  apply (start_sequence 8 0x1000 0x1000 0x2000 0x2018 0x3000 0x3010
           sample_image 0x5000 sample_main true
           [] [0x100; 0; 0x200] [0x300; 0x400] 1 ["app"%string] 7 fresh).
  - reflexivity.
  - reflexivity.
  - intros _. exact sample_linked.
Defined.

Lemma runner_invokes_nonnull_in_order_witness :
  exec_init 8 0x2000 0x2018 sample_image fresh
  = Returned tt (log fresh [EvInvoke 0x100; EvInvoke 0x200])
  /\ length (filter (fun f => f ≠ 0) [0x100; 0; 0x200]) = (3 - 1)%nat.
Proof.
  apply (runner_invokes_nonnull_in_order 8 0x1000 0x1000 0x2000 0x2018
           0x3000 0x3010 sample_image Init [0x100; 0; 0x200] fresh).
  exact (proj1 (proj2 sample_linked)).
Defined.

Lemma runner_empty_range_witness :
  exec_preinit 8 0x1000 0x1000 sample_image fresh = Returned tt fresh.
Proof.
  apply (runner_empty_range 8 0x1000 0x1000 0x2000 0x2018 0x3000 0x3010
           sample_image PreInit fresh).
  reflexivity.
Defined.

Lemma exit_status_is_main_return_witness :
  exists w' before after,
    sample_start true fresh = Terminated 7 w'
    /\ trace w' = before ++ [EvMain 1 ["app"%string]; EvExit 7] ++ after
    /\ forall s, EvExit s ∉ before ++ after.
Proof.
  apply (exit_status_is_main_return 8 0x1000 0x1000 0x2000 0x2018
           0x3000 0x3010 sample_image 0x5000 sample_main true
           [] [0x100; 0; 0x200] [0x300; 0x400] 1 ["app"%string] 7 fresh).
  - reflexivity.
  - reflexivity.
  - intros _. exact sample_linked.
Defined.

Lemma fini_once_at_exit_witness :
  exists w',
    sample_start true fresh = Terminated 7 w'
    /\ trace w'
       = [EvSigtramp 0x5000; EvInvoke 0x100; EvInvoke 0x200]
           ++ [EvAtexit Fn_exec_fini; EvMain 1 ["app"%string]; EvExit 7]
           ++ [EvInvoke 0x300; EvInvoke 0x400]
    /\ exitfuncs w' = []
    /\ forall status,
         (exit 8 0x3000 0x3010 sample_image status : M Empty_set) w'
         = Terminated status (log w' [EvExit status]).
Proof.
  apply (fini_once_at_exit 8 0x1000 0x1000 0x2000 0x2018 0x3000 0x3010
           sample_image 0x5000 sample_main
           [] [0x100; 0; 0x200] [0x300; 0x400] 1 ["app"%string] fresh).
  - reflexivity.
  - exact sample_linked.
Defined.

(** C6 as the specification states it does not hold of a build without
    CONFIG_HAVE_CXX: the image holds the fini array [C; D], the task runs
    to its exit with main's status, and neither C nor D is ever invoked. *)
Lemma fini_skipped_without_cxx :
  array_at 8 sample_image 0x3000 0x3010 [0x300; 0x400]
  /\ exists w',
       sample_start false fresh = Terminated 7 w'
       /\ trace w' = [EvSigtramp 0x5000; EvMain 1 ["app"%string]; EvExit 7]
       /\ (EvInvoke 0x300 ∉ trace w')
       /\ (EvInvoke 0x400 ∉ trace w').
Proof.
  split; [exact (proj2 (proj2 sample_linked))|].
  eexists. split; [vm_compute; reflexivity|].
  split; [reflexivity|].
  split; intros Hin; simpl in Hin;
    rewrite !elem_of_cons in Hin;
    destruct Hin as [Hin|[Hin|[Hin|Hin]]]; try discriminate; inversion Hin.
Qed.

Lemma start_without_cxx_witness :
  sample_start false fresh
  = (ret ← call_main 8 0x3000 0x3010 sample_image sample_main 1 ["app"%string];
     (exit 8 0x3000 0x3010 sample_image ret : M Empty_set))
      {| ar_sigtramp := 0x5000; exitfuncs := [];
         trace := [EvSigtramp 0x5000] |}
  /\ exists w',
       sample_start false fresh = Terminated 7 w'
       /\ trace w' = [EvSigtramp 0x5000; EvMain 1 ["app"%string]; EvExit 7]
       /\ exitfuncs w' = [].
Proof.
  apply (start_without_cxx 8 0x1000 0x1000 0x2000 0x2018 0x3000 0x3010
           sample_image 0x5000 sample_main 1 ["app"%string] fresh).
  reflexivity.
Defined.

Lemma runner_reversed_range_witness :
  exec_init 8 0x2018 0x2000 sample_image fresh = Returned tt fresh.
Proof.
  apply (runner_reversed_range 8 0x1000 0x1000 0x2018 0x2000 0x3000 0x3010
           sample_image Init fresh).
  simpl. lia.
Defined.

Lemma runner_splits_witness :
  (exec_preinit 8 0x2000 (0x2000 + 8 * 1) sample_image ;;
   exec_preinit 8 (0x2000 + 8 * 1) 0x2018 sample_image) fresh
  = exec_preinit 8 0x2000 0x2018 sample_image fresh
  /\ (exec_init 8 0x2000 (0x2000 + 8 * 1) sample_image ;;
      exec_init 8 (0x2000 + 8 * 1) 0x2018 sample_image) fresh
     = exec_init 8 0x2000 0x2018 sample_image fresh
  /\ (exec_fini 8 0x2000 (0x2000 + 8 * 1) sample_image ;;
      exec_fini 8 (0x2000 + 8 * 1) 0x2018 sample_image) fresh
     = exec_fini 8 0x2000 0x2018 sample_image fresh.
Proof.
  apply (runner_splits 8 sample_image 1 0x2000 0x2018 fresh).
  lia.
Defined.

Lemma sample_init_array :
  array_at 8 sample_image 0x2000 0x2018 [0x100; 0; 0x200].
Proof. exact (proj1 (proj2 sample_linked)). Qed.

Lemma runner_faults_at_unmapped_slot_witness :
  exec_init 8 0x2000 0x2020 sample_image fresh
  = Faulted (log fresh [EvInvoke 0x100; EvInvoke 0x200]).
Proof.
  apply (runner_faults_at_unmapped_slot 8 0x1000 0x1000 0x2000 0x2020
           0x3000 0x3010 sample_image Init [0x100; 0; 0x200] 0x2018 fresh).
  - exact sample_init_array.
  - simpl. lia.
  - reflexivity.
Defined.

Lemma start_faults_before_main_witness :
  __start true 8 0x1000 0x1000 0x2000 0x2020 0x3000 0x3010
    sample_image 0x5000 sample_main 1 ["app"%string] fresh
  = Faulted {| ar_sigtramp := 0x5000; exitfuncs := [];
               trace := [EvSigtramp 0x5000; EvInvoke 0x100; EvInvoke 0x200] |}
  /\ @nil exitfunc = []
  /\ exists evs,
       [EvSigtramp 0x5000; EvInvoke 0x100; EvInvoke 0x200]
       = EvSigtramp 0x5000 :: evs
       /\ Forall (fun ev => exists f, ev = EvInvoke f) evs.
Proof.
  apply (start_faults_before_main 8 0x1000 0x1000 0x2000 0x2020
           0x3000 0x3010 sample_image 0x5000 sample_main 1 ["app"%string]
           fresh
           {| ar_sigtramp := 0x5000; exitfuncs := [];
              trace := [EvSigtramp 0x5000; EvInvoke 0x100; EvInvoke 0x200] |}).
  vm_compute. reflexivity.
Defined.

End Crt1Proofs.
